(** * Forge: the inference driver, the tensor stub and the GraphRAG core

  The C++ sources [llm-engine/src/main.cpp] and [llm-engine/src/tensor.hpp]
  are embedded function by function.  The graph-construction-and-retrieval
  engine that the design document describes has no source file here; its
  operations are modelled from the design document and marked as such. *)

From Stdlib Require Import String Ascii List Arith Lia Bool QArith.
From Equations Require Import Equations.
From stdpp Require Import gmap strings list fin_maps sorting.
Import ListNotations.
Close Scope Q_scope.
Open Scope string_scope.
Open Scope list_scope.

(* ===================================================================== *)
(** ** tensor.hpp *)
(* ===================================================================== *)

Module TensorHpp.

(** [enum class DType { FP32, FP16, INT8, Q4 }] *)
Inductive DType := FP32 | FP16 | INT8 | Q4.

(** A C++ object pointer: null or an address. *)
Inductive pointer (T : Type) :=
| nullptr
| at_address (a : N).
Arguments nullptr {T}.
Arguments at_address {T} a.

(** [class Tensor] has no data member: an object carries no state. *)
Inductive Tensor : Set := tensor_object.

(** [Tensor() = default;] *)
Definition Tensor_default : Tensor := tensor_object.

(** [Tensor(const std::vector<int>& shape, DType dtype) {}] *)
Definition Tensor_of (shape : list Z) (dtype : DType) : Tensor := tensor_object.

(** [void* raw() { return nullptr; }] *)
Definition raw (t : Tensor) : pointer unit := nullptr.

(** [template<typename T> T* data() { return nullptr; }] *)
Definition data (T : Type) (t : Tensor) : pointer T := nullptr.

(** [size_t byte_size() const { return 0; }] *)
Definition byte_size (t : Tensor) : N := 0%N.

(** [std::vector<int> shape() const { return {}; }] *)
Definition shape (t : Tensor) : list Z := [].

End TensorHpp.

(* ===================================================================== *)
(** ** main.cpp *)
(* ===================================================================== *)

Module MainCpp.
Import TensorHpp.

(** What the process does that an observer can see, in program order:
    text sent to [std::cout] and [std::cerr], and calls of the loader. *)
Inductive event :=
| Cout (s : string)             (* std::cout << s *)
| CoutSize (n : nat)            (* std::cout << initializers.size() *)
| CoutEndl                      (* std::cout << std::endl *)
| Cerr (s : string)             (* std::cerr << s *)
| CerrEndl                      (* std::cerr << std::endl *)
| LoadOnnx (path : string).     (* load_onnx_initializers(path) is entered *)

(** Outcome of [load_onnx_initializers]: it throws a [std::exception]
    (kept by its [what()]), it throws something that is not a
    [std::exception], or it returns the map, kept as the list of its pairs
    in iteration order. *)
Inductive load_result :=
| Throws (what : string)
| ThrowsOther
| Loaded (initializers : list (string * Tensor)).

(** How [main] ends: it returns an exit code, or an exception that its
    [catch (const std::exception&)] does not match leaves it and the run
    ends in [std::terminate]. *)
Inductive outcome :=
| Returns (code : Z)
| Terminates.

Definition usage_line : string :=
  String.append "Usage: infer --model <path_to_onnx_model> [options]"
    (String "010" "").

(** [void print_usage()] *)
Definition print_usage : list event := [Cout usage_line].

(** [args[i]] for [i] inside the vector; the loop never reads outside. *)
Definition arg_at (args : list string) (i : nat) : string := nth i args "".

(** The parsing loop of [main], lines 14-19, with [i] and [model_path] as
    its state:
<<
    for (size_t i = 0; i < args.size(); ++i) {
        if (args[i] == "--model" && i + 1 < args.size()) {
            model_path = args[++i];
        }
    }
>>
    [i < args.size()] keeps [i + 1] from wrapping, so [nat] is exact. *)
Equations? parse_loop (args : list string) (i : nat) (model_path : string)
  : string by wf (length args - i) lt :=
  parse_loop args i model_path with lt_dec i (length args) => {
    | right _ := model_path;
    | left _ with String.eqb (arg_at args i) "--model"
                  && Nat.ltb (i + 1)%nat (length args) => {
      | true := parse_loop args (S (S i)) (arg_at args (S i));
      | false := parse_loop args (S i) model_path } }.
Proof. all: lia. Qed.

(** [std::string model_path;] then the loop from [i = 0]. *)
Definition parse_args (args : list string) : string := parse_loop args 0 "".

(** [model_path.empty()] *)
Definition empty (s : string) : bool :=
  match s with EmptyString => true | _ => false end.

Section Main.
(** [load_onnx_initializers] is declared in [loaders/onnx_loader.hpp]
    and defined outside these sources. *)
Variable load_onnx_initializers : string -> load_result.

(** [int main(int argc, char* argv[])], on [args = argv[1..argc)] for
    [argc >= 1]: the events in program order and how it ends. *)
Definition main (args : list string) : list event * outcome :=
  let model_path := parse_args args in
  if empty model_path then (print_usage, Returns 1%Z)
  else
    let banner := [Cout "Loading model from: "; Cout model_path; CoutEndl;
                   LoadOnnx model_path] in
    match load_onnx_initializers model_path with
    | Loaded initializers =>
        (banner
           ++ [Cout "Successfully loaded "; CoutSize (length initializers);
               Cout " initializers:"; CoutEndl]
           ++ flat_map (fun pair => [Cout " - "; Cout (fst pair); CoutEndl])
                initializers,
         Returns 0%Z)
    | Throws what =>
        (banner ++ [Cerr "Error: "; Cerr what; CerrEndl], Returns 1%Z)
    | ThrowsOther => (banner, Terminates)
    end.
End Main.

(** *** The reading of the argument list that the loop implements *)

(** Position [i] holds ["--model"] and has a following argument. *)
Definition model_flag (args : list string) (i : nat) : bool :=
  String.eqb (arg_at args i) "--model" && Nat.ltb (i + 1)%nat (length args).

(** The positions of [args] that hold ["--model"] with a following
    argument, in increasing order. *)
Definition model_flags (args : list string) : list nat :=
  List.filter (model_flag args) (seq 0 (length args)).

(** The value the sentence "the argument immediately following the last
    occurrence of --model that has a following argument" names, when there
    is such an occurrence. *)
Definition following_last_model_flag (args : list string) : option string :=
  match last (model_flags args) with
  | Some i => Some (arg_at args (S i))
  | None => None
  end.

(** Position [i] is taken as the value of a ["--model"] read just before
    it ([args[++i]]), so the loop never tests it. *)
Fixpoint consumed (args : list string) (i : nat) : bool :=
  match i with
  | 0 => false
  | S j => negb (consumed args j) && model_flag args j
  end.

(** Position [i] holds a ["--model"] that the loop reads as the option:
    it has a following argument and is not itself the value of the
    ["--model"] before it. *)
Definition read_flag (args : list string) (i : nat) : bool :=
  model_flag args i && negb (consumed args i).

(** The last position of [from, from + n) where [f] holds. *)
Definition last_where (f : nat -> bool) (from n : nat) : option nat :=
  last (List.filter f (seq from n)).

End MainCpp.

(* ===================================================================== *)
(** ** main.cpp: the loop with its reads made explicit *)
(* ===================================================================== *)

Module MainCppMore.
Import TensorHpp MainCpp.

(** The parsing loop of [main], lines 14-19, once more, now with each
    [args[...]] as a read that has no value outside the vector
    ([std::vector::operator[]] is undefined there): [None] stands for a
    run that reads [args[i]] or [args[++i]] out of range. *)
Equations? parse_loop_checked (args : list string) (i : nat) (model_path : string)
  : option string by wf (length args - i) lt :=
  parse_loop_checked args i model_path with lt_dec i (length args) => {
    | right _ := Some model_path;
    | left _ with args !! i => {
      | None := None;
      | Some a with String.eqb a "--model"
                    && Nat.ltb (i + 1)%nat (length args) => {
        | true with args !! S i => {
          | None := None;
          | Some v := parse_loop_checked args (S (S i)) v };
        | false := parse_loop_checked args (S i) model_path } } }.
Proof. all: lia. Qed.

(** The loop seen from the list: it walks the arguments from the left, and
    a ["--model"] that has an argument after it takes that argument as the
    new [model_path] and steps over it. *)
Fixpoint scan (args : list string) (model_path : string) : string :=
  match args with
  | a :: rest =>
      match rest with
      | v :: rest' =>
          if String.eqb a "--model" then scan rest' v else scan rest model_path
      | [] => model_path
      end
  | [] => model_path
  end.

(** The event is a call of the loader. *)
Definition is_load (e : event) : bool :=
  match e with LoadOnnx _ => true | _ => false end.

(** The event is a write to [std::cerr]. *)
Definition is_cerr (e : event) : bool :=
  match e with Cerr _ | CerrEndl => true | _ => false end.

End MainCppMore.

(* ===================================================================== *)
(** ** The GraphRAG core: data model *)
(* ===================================================================== *)

(** The engine of the design document (Extractor, Resolver, Graph Store,
  Community Engine, Query Engine) is not among the source files.  Every
  definition from here to the theorems follows the design document, section
  by section.  The document's [float] fields are rationals here: nothing
  below depends on rounding. *)

Module Model.

Definition chunk_id := nat.
Definition entity_id := nat.
Definition community_id := nat.

(** Modelled from the spec: the Chunk record of section 3, owned by the
    Chunk Source, which has no source file. *)
Record Chunk := {
  chunk_ident : chunk_id;
  document_id : nat;
  chunk_text : string;
  offset_range : nat * nat;
  sequence_index : nat }.

(** Modelled from the spec: the EntityMention record of section 3. *)
Record EntityMention := {
  mention_chunk : chunk_id;
  surface_text : string;
  mention_type : string;
  mention_description : string;
  confidence : Q }.

(** Modelled from the spec: the RelationshipMention record of section 3. *)
Record RelationshipMention := {
  relation_chunk : chunk_id;
  source_surface : string;
  target_surface : string;
  relation_text : string;
  strength : Q }.

(** Modelled from the spec: the canonical Entity of section 3.  Its
    [degree] is the number of incident relationships and is read off the
    graph ([GraphStore.degree]) instead of being stored. *)
Record Entity := {
  entity_ident : entity_id;
  canonical_name : string;
  entity_type : string;
  aliases : gset string;
  description : string;
  supporting_chunks : gset chunk_id }.

(** Modelled from the spec: the canonical Relationship of section 3. *)
Record Relationship := {
  source_entity_id : entity_id;
  target_entity_id : entity_id;
  relation_type : string;
  weight : Q;
  relation_chunks : gset chunk_id }.

(** Modelled from the spec: the Graph of section 3.  Entities live in an
    arena indexed by their stable integer id (section 9); relationships
    are kept one per (source, target, relation_type). *)
Record Graph := {
  entities : list Entity;
  relationships : gmap (entity_id * entity_id * string) Relationship }.

Definition empty_graph : Graph := {| entities := []; relationships := ∅ |}.

(** Modelled from the spec: the Community record of section 3. *)
Record Community := {
  community_ident : community_id;
  level : nat;
  member_entity_ids : gset entity_id;
  parent_community_id : option community_id;
  summary : option string }.

(** Modelled from the spec: the index snapshot of section 3, "a versioned,
    serializable bundle of {Graph, Communities, Chunk metadata}", with the
    counts that section 7 reports to the user. *)
Record Index := {
  version : nat;
  index_graph : Graph;
  community_levels : list (list Community);
  chunk_metadata : list Chunk;
  quarantined_chunks : list chunk_id;
  dropped_relation_count : nat;
  rejected_mutation_count : nat }.

Definition empty_index : Index :=
  {| version := 0; index_graph := empty_graph; community_levels := [];
     chunk_metadata := []; quarantined_chunks := [];
     dropped_relation_count := 0; rejected_mutation_count := 0 |}.

(** Modelled from the spec: the error taxonomy of section 7. *)
Inductive error :=
| ExtractionParseError
| ResolutionConflict
| GraphInvariantViolation
| CommunityDetectionFailure
| RetrievalTimeout
| ModelUnavailable.

(** Modelled from the spec: the policies that the design leaves to the
    implementer (section 4.2 and the open question of section 9). *)
Class ResolverPolicy := {
  normalize : string -> string;
  similarity : EntityMention -> Entity -> Q;
  similarity_threshold : Q;
  refine_description : string -> string -> string }.

End Model.

(* ===================================================================== *)
(** ** Graph Store (section 4.3) *)
(* ===================================================================== *)

Module GraphStore.
Import Model.

(** Modelled from the spec: the id names an entity of the arena. *)
Definition has_entity (g : Graph) (id : entity_id) : bool :=
  bool_decide (is_Some (entities g !! id)).

Definition with_ident (id : entity_id) (e : Entity) : Entity :=
  {| entity_ident := id; canonical_name := canonical_name e;
     entity_type := entity_type e; aliases := aliases e;
     description := description e;
     supporting_chunks := supporting_chunks e |}.

(** Modelled from the spec: [upsert_entity] of the Graph Store, which has
    no source file.  An entity whose id names a slot of the arena replaces
    that slot; any other is appended and takes the next id.  No entity is
    ever removed. *)
Definition upsert_entity (e : Entity) (g : Graph) : Graph :=
  match entities g !! entity_ident e with
  | Some _ =>
      {| entities := <[entity_ident e := e]> (entities g);
         relationships := relationships g |}
  | None =>
      {| entities := entities g ++ [with_ident (length (entities g)) e];
         relationships := relationships g |}
  end.

(** Modelled from the spec: the edge stored after one more mention of
    strength [w] from chunk [c]: a parallel mention adds to the weight of
    the existing edge. *)
Definition strengthened (src tgt : entity_id) (rel : string) (w : Q) (c : chunk_id)
    (old : option Relationship) : Relationship :=
  match old with
  | Some r =>
      {| source_entity_id := src; target_entity_id := tgt; relation_type := rel;
         weight := Qplus (weight r) w;
         relation_chunks := relation_chunks r ∪ {[c]} |}
  | None =>
      {| source_entity_id := src; target_entity_id := tgt; relation_type := rel;
         weight := w; relation_chunks := {[c]} |}
  end.

(** Modelled from the spec: [upsert_relationship] of the Graph Store,
    which has no source file.  It "rejects self-loop edges, rejects edges
    with missing endpoints — signals GraphInvariantViolation"; the graph is
    returned next to the verdict, so a rejection can be seen to leave it
    alone. *)
Definition upsert_relationship (src tgt : entity_id) (rel : string) (w : Q)
    (c : chunk_id) (g : Graph) : Graph * option error :=
  if bool_decide (src = tgt) then (g, Some GraphInvariantViolation)
  else if has_entity g src && has_entity g tgt then
    ({| entities := entities g;
        relationships :=
          <[(src, tgt, rel) :=
              strengthened src tgt rel w c (relationships g !! (src, tgt, rel))]>
            (relationships g) |},
     None)
  else (g, Some GraphInvariantViolation).

(** The invariant of section 3: "every Relationship's endpoints exist in
    the Entity set". *)
Definition no_dangling (g : Graph) : Prop :=
  forall key r,
    relationships g !! key = Some r ->
    is_Some (entities g !! source_entity_id r) /\
    is_Some (entities g !! target_entity_id r).

(** Modelled from the spec: an entity answers to a name that normalises
    like its canonical name or that is one of its aliases. *)
Definition answers_to `{ResolverPolicy} (name : string) (e : Entity) : bool :=
  bool_decide (normalize name = normalize (canonical_name e))
  || bool_decide (name ∈ aliases e).

(** Modelled from the spec: [lookup_by_name] of the Graph Store; among the
    entities that answer to the name, the one of lowest id. *)
Definition lookup_by_name `{ResolverPolicy} (name : string) (g : Graph)
    : option entity_id :=
  fst <$> list_find (fun e => answers_to name e = true) (entities g).

(** Modelled from the spec: [neighbors(entity_id)]. *)
Definition neighbors (id : entity_id) (g : Graph) : gset entity_id :=
  list_to_set
    (omap (fun kr : entity_id * entity_id * string * Relationship =>
             let r := kr.2 in
             if bool_decide (source_entity_id r = id) then Some (target_entity_id r)
             else if bool_decide (target_entity_id r = id) then Some (source_entity_id r)
             else None)
          (map_to_list (relationships g))).

(** Modelled from the spec: the [degree] of an entity. *)
Definition degree (id : entity_id) (g : Graph) : nat := size (neighbors id g).

(** Modelled from the spec: [subgraph(entity_ids, hops)], "a bounded
    breadth-first expansion up to hops from a seed set". *)
Fixpoint subgraph (seeds : gset entity_id) (hops : nat) (g : Graph)
    : gset entity_id :=
  match hops with
  | 0 => seeds
  | S h =>
      subgraph (seeds ∪ ⋃ ((fun id => neighbors id g) <$> elements seeds)) h g
  end.

End GraphStore.

(* ===================================================================== *)
(** ** Resolver (section 4.2) *)
(* ===================================================================== *)

Module Resolver.
Import Model GraphStore.

(** Modelled from the spec: the entity that a mention stands for on its own. *)
Definition entity_of_mention (id : entity_id) (m : EntityMention) : Entity :=
  {| entity_ident := id;
     canonical_name := surface_text m;
     entity_type := mention_type m;
     aliases := {[surface_text m]};
     description := mention_description m;
     supporting_chunks := {[mention_chunk m]} |}.

(** Modelled from the spec: the merge of section 3, "one-directional: a
    loses identity into b"; "alias set grows, description is refined,
    supporting_chunks accumulates". *)
Definition merge_into `{ResolverPolicy} (a b : Entity) : Entity :=
  {| entity_ident := entity_ident b;
     canonical_name := canonical_name b;
     entity_type := entity_type b;
     aliases := aliases b ∪ aliases a;
     description := refine_description (description b) (description a);
     supporting_chunks := supporting_chunks b ∪ supporting_chunks a |}.

(** Modelled from the spec: the normalised names an entity is known by,
    its canonical name and the aliases that "absorb the new surface form"
    at each merge. *)
Definition known_as `{ResolverPolicy} (key : string) (e : Entity) : bool :=
  bool_decide (key = normalize (canonical_name e))
  || bool_decide (key ∈ (set_map normalize (aliases e) : gset string)).

(** Modelled from the spec: the entity has the identity [(key, type)]. *)
Definition exact_key `{ResolverPolicy} (key type : string) (e : Entity) : bool :=
  known_as key e && bool_decide (type = entity_type e).

(** Modelled from the spec: "exact normalized-name+type match first" *)
Definition exact_match `{ResolverPolicy} (m : EntityMention) (e : Entity) : bool :=
  exact_key (normalize (surface_text m)) (mention_type m) e.

(** Modelled from the spec: "then by a similarity threshold over name and
    description", among entities of the same type. *)
Definition similar_match `{ResolverPolicy} (m : EntityMention) (e : Entity) : bool :=
  bool_decide (mention_type m = entity_type e)
  && Qle_bool similarity_threshold (similarity m e).

(** Modelled from the spec: the candidate for a mention, "by exact
    normalized-name+type match first, then by a similarity threshold". *)
Definition find_candidate `{ResolverPolicy} (m : EntityMention) (g : Graph)
    : option Entity :=
  match list_find (fun e => exact_match m e = true) (entities g) with
  | Some (_, e) => Some e
  | None => snd <$> list_find (fun e => similar_match m e = true) (entities g)
  end.

(** Modelled from the spec: the entity half of [resolve], which has no
    source file.  "On a match, the Resolver merges the mention into the
    existing Entity ... On no match, a new Entity is created." *)
Definition resolve_entity_mention `{ResolverPolicy} (g : Graph) (m : EntityMention)
    : Graph :=
  match find_candidate m g with
  | Some e => upsert_entity (merge_into (entity_of_mention (entity_ident e) m) e) g
  | None => upsert_entity (entity_of_mention (length (entities g)) m) g
  end.

(** Modelled from the spec: mentions resolved one after the other. *)
Definition resolve_all `{ResolverPolicy} (ms : list EntityMention) (g : Graph)
    : Graph :=
  fold_left resolve_entity_mention ms g.








(** Modelled from the spec: what a resolution pass carries: the graph, the
    relation mentions put off to the second pass, and the error counts of
    section 7. *)
Record ResolveState := {
  graph : Graph;
  deferred : list RelationshipMention;
  dropped_relations : nat;
  rejected_mutations : nat }.

(** Modelled from the spec: "surface endpoints are mapped to
    already-resolved Entities". *)
Definition endpoints `{ResolverPolicy} (rm : RelationshipMention) (g : Graph)
    : option (entity_id * entity_id) :=
  match lookup_by_name (source_surface rm) g, lookup_by_name (target_surface rm) g with
  | Some s, Some t => Some (s, t)
  | _, _ => None
  end.

Definition with_graph (g : Graph) (st : ResolveState) : ResolveState :=
  {| graph := g; deferred := deferred st;
     dropped_relations := dropped_relations st;
     rejected_mutations := rejected_mutations st |}.

Definition count_rejected (st : ResolveState) : ResolveState :=
  {| graph := graph st; deferred := deferred st;
     dropped_relations := dropped_relations st;
     rejected_mutations := S (rejected_mutations st) |}.

Definition count_dropped (st : ResolveState) : ResolveState :=
  {| graph := graph st; deferred := deferred st;
     dropped_relations := S (dropped_relations st);
     rejected_mutations := rejected_mutations st |}.

Definition defer (rm : RelationshipMention) (st : ResolveState) : ResolveState :=
  {| graph := graph st; deferred := deferred st ++ [rm];
     dropped_relations := dropped_relations st;
     rejected_mutations := rejected_mutations st |}.

(** Modelled from the spec: one relationship mutation sent to the Graph
    Store. A rejection is counted ("fatal to that single mutation, not to
    the run") and the pass goes on with the graph the store handed back. *)
Definition store_relation (rm : RelationshipMention) (s t : entity_id)
    (st : ResolveState) : ResolveState :=
  match upsert_relationship s t (relation_text rm) (strength rm)
          (relation_chunk rm) (graph st) with
  | (g, None) => with_graph g st
  | (g, Some _) => count_rejected (with_graph g st)
  end.

(** Modelled from the spec: first pass: "a relation whose endpoint entity is
    not yet resolved in this batch is deferred to a second pass within the
    same batch". *)
Definition resolve_relation `{ResolverPolicy} (st : ResolveState)
    (rm : RelationshipMention) : ResolveState :=
  match endpoints rm (graph st) with
  | Some (s, t) => store_relation rm s t st
  | None => defer rm st
  end.

(** Modelled from the spec: second pass: "if still unresolved, it is dropped
    and counted as an error, not silently ignored". *)
Definition resolve_deferred `{ResolverPolicy} (st : ResolveState)
    (rm : RelationshipMention) : ResolveState :=
  match endpoints rm (graph st) with
  | Some (s, t) => store_relation rm s t st
  | None => count_dropped st
  end.

(** Modelled from the spec: [resolve(mentions, relations)], which has no
    source file, on the mention set extracted from one chunk: the entity
    mentions first, then the first pass over the relation mentions. *)
Definition resolve `{ResolverPolicy} (st : ResolveState)
    (set : list EntityMention * list RelationshipMention) : ResolveState :=
  fold_left resolve_relation set.2
    (with_graph (fold_left resolve_entity_mention set.1 (graph st)) st).

(** Modelled from the spec: a batch: every mention set in turn, then the
    second pass over what was deferred. *)
Definition resolve_batch `{ResolverPolicy} (st : ResolveState)
    (batch : list (list EntityMention * list RelationshipMention)) : ResolveState :=
  let st1 := fold_left resolve batch st in
  fold_left resolve_deferred (deferred st1)
    {| graph := graph st1; deferred := [];
       dropped_relations := dropped_relations st1;
       rejected_mutations := rejected_mutations st1 |}.

Definition start (g : Graph) : ResolveState :=
  {| graph := g; deferred := []; dropped_relations := 0; rejected_mutations := 0 |}.

(** Modelled from the spec: ingestion of a sequence of batches of mention
    sets. *)
Definition ingest `{ResolverPolicy}
    (batches : list (list (list EntityMention * list RelationshipMention)))
    (g : Graph) : ResolveState :=
  fold_left resolve_batch batches (start g).

End Resolver.

(* ===================================================================== *)
(** ** Completion Service (section 6) *)
(* ===================================================================== *)

Module Completion.
Import Model.

(** Modelled from the spec: [complete(prompt: string, max_tokens: int,
    temperature: float)] *)
Record Request := {
  prompt : string;
  max_tokens : nat;
  temperature : Q }.

(** Modelled from the spec: the Completion Service, an external
    collaborator with no source file.  It "returns text or fails", "with
    ModelUnavailable or RetrievalTimeout"; the design "does not assume
    determinism", so a backend threads a state of its own through the
    calls. *)
Class Service (B : Type) := complete : B -> Request -> (error + string) * B.

(** Modelled from the spec: a run of the engine against a backend, with the
    requests sent so far in the order they were sent. *)
Record Session (B : Type) := {
  backend : B;
  calls : list Request }.
Arguments backend {B} _.
Arguments calls {B} _.

Definition Run (B A : Type) : Type := Session B -> A * Session B.

Definition ret {B A} (a : A) : Run B A := fun ses => (a, ses).

Definition bind {B A C} (m : Run B A) (k : A -> Run B C) : Run B C :=
  fun ses => let (a, ses') := m ses in k a ses'.

(** Modelled from the spec: one request through the shared service; it is
    logged whatever the answer. *)
Definition call `{Service B} (req : Request) : Run B (error + string) :=
  fun ses =>
    let (answer, next) := complete (backend ses) req in
    (answer, {| backend := next; calls := calls ses ++ [req] |}).

Definition fresh_session {B} (s : B) : Session B := {| backend := s; calls := [] |}.

End Completion.

Declare Scope run_scope.
Delimit Scope run_scope with run.
Notation "'let*' x := m 'in' k" := (Completion.bind m (fun x => k))
(at level 10, x name, m at level 100, k at level 200) : run_scope.

(* ===================================================================== *)
(** ** Extractor (section 4.1) and the ingestion run *)
(* ===================================================================== *)

Module Extractor.
Import Model Completion Resolver.














End Extractor.

(* ===================================================================== *)
(** ** Query Engine (section 4.5) *)
(* ===================================================================== *)

Module QueryEngine.
Import Model GraphStore Completion Extractor.

(** Modelled from the spec: the three retrieval modes. *)
Inductive mode := Local | Global | Hybrid.

(** Modelled from the spec: a piece of evidence handed to the synthesis
    prompt. *)
Inductive Evidence :=
| EntityEvidence (e : Entity)
| RelationshipEvidence (r : Relationship)
| CommunityEvidence (c : Community).

(** The id that evidence is deduplicated by. *)
Definition evidence_key (ev : Evidence) : nat * (nat * nat) * string :=
  match ev with
  | EntityEvidence e => (0, (entity_ident e, 0), "")
  | RelationshipEvidence r =>
      (1, (source_entity_id r, target_entity_id r), relation_type r)
  | CommunityEvidence c => (2, (community_ident c, level c), "")
  end.

(** Modelled from the spec: what the design leaves open: the scores, the
    sizes, the wording of the synthesis prompt and how a prompt is shortened
    for the retry. *)
Class QueryPolicy := {
  match_score : string -> list Chunk -> Entity -> Q;
  relevance : string -> string -> Q;
  top_k : nat;
  hops : nat;
  summary_level : nat;
  rank_evidence : string -> list Evidence -> list Evidence;
  synthesis_prompt : string -> list Evidence -> string;
  shorten : string -> string;
  answer_max_tokens : nat;
  answer_temperature : Q }.

(** Modelled from the spec: a cited answer. *)
Record Answer := {
  answer_text : string;
  cited_chunks : gset chunk_id;
  cited_communities : gset community_id }.

(** [x] scores at least as high as [y]. *)
Definition scores_above {A} (score : A -> Q) (x y : A) : Prop :=
  Qle_bool (score y) (score x) = true.

#[global] Instance scores_above_dec {A} (score : A -> Q) (x y : A)
  : Decision (scores_above score x y).
Proof. unfold scores_above. apply _. Defined.

(** Modelled from the spec: the [k] best of [items], highest score first. *)
Definition best {A} (k : nat) (score : A -> Q) (items : list A) : list A :=
  take k (merge_sort (scores_above score) items).

(** Modelled from the spec: the evidence of the Local mode.  The policy's
    [match_score] is the "embed/keyword-match ... against Entity
    names+descriptions and Chunk text"; then "take top-k seeds, expand via
    subgraph (bounded hops), rank returned entities/relationships". *)
Definition local_evidence `{QueryPolicy} (question : string) (idx : Index)
    : list Evidence :=
  let g := index_graph idx in
  let seeds := best top_k (match_score question (chunk_metadata idx)) (entities g) in
  let reached := subgraph (list_to_set (entity_ident <$> seeds)) hops g in
  rank_evidence question
    ((EntityEvidence <$>
        List.filter (fun e => bool_decide (entity_ident e ∈ reached)) (entities g))
     ++ (RelationshipEvidence <$>
           List.filter
             (fun r => bool_decide (source_entity_id r ∈ reached)
                       && bool_decide (target_entity_id r ∈ reached))
             (snd <$> map_to_list (relationships g)))).

Definition summary_text (c : Community) : string :=
  match summary c with Some s => s | None => "" end.

(** Modelled from the spec: "each summary independently scored for relevance
    ... top-k summaries selected"; the score is the embedding similarity, so
    scoring sends nothing to the Completion Service. *)
Definition global_evidence `{QueryPolicy} (question : string) (idx : Index)
    : list Evidence :=
  match community_levels idx !! summary_level with
  | Some communities =>
      CommunityEvidence <$>
        best top_k (fun c => relevance question (summary_text c)) communities
  | None => []
  end.

(** Modelled from the spec: "dedup by entity/community id" *)
Fixpoint dedup_evidence (seen : gset (nat * (nat * nat) * string))
    (evidence : list Evidence) : list Evidence :=
  match evidence with
  | [] => []
  | ev :: rest =>
      if bool_decide (evidence_key ev ∈ seen) then dedup_evidence seen rest
      else ev :: dedup_evidence (seen ∪ {[evidence_key ev]}) rest
  end.

(** Modelled from the spec: the evidence of each retrieval mode; Hybrid
    "runs both, merges evidence sets (dedup by entity/community id)". *)
Definition evidence_for `{QueryPolicy} (m : mode) (question : string) (idx : Index)
    : list Evidence :=
  match m with
  | Local => local_evidence question idx
  | Global => global_evidence question idx
  | Hybrid =>
      dedup_evidence ∅ (local_evidence question idx ++ global_evidence question idx)
  end.

Definition answer_request `{QueryPolicy} (text : string) : Request :=
  {| prompt := text; max_tokens := answer_max_tokens;
     temperature := answer_temperature |}.

(** Modelled from the spec: "the Query Engine does not retry indefinitely —
    one retry with a shortened prompt, then surface the error to the
    caller." *)
Definition complete_with_retry `{Service B} `{QueryPolicy} (text : string)
    : Run B (error + string) :=
  (let* first := call (answer_request text) in
   match first with
   | inr output => ret (inr output)
   | inl _ => call (answer_request (shorten text))
   end)%run.

Definition chunks_of (ev : Evidence) : gset chunk_id :=
  match ev with
  | EntityEvidence e => supporting_chunks e
  | RelationshipEvidence r => relation_chunks r
  | CommunityEvidence _ => ∅
  end.

Definition communities_of (ev : Evidence) : gset community_id :=
  match ev with
  | CommunityEvidence c => {[community_ident c]}
  | _ => ∅
  end.

(** Modelled from the spec: the [query] operation, which has no source
    file: the evidence of the chosen mode, then one synthesis prompt. *)
Definition query `{Service B} `{QueryPolicy} (m : mode) (question : string)
    (idx : Index) : Run B (error + Answer) :=
  let evidence := evidence_for m question idx in
  (let* outcome := complete_with_retry (synthesis_prompt question evidence) in
   ret match outcome with
       | inr output =>
           inr {| answer_text := output;
                  cited_chunks := ⋃ (chunks_of <$> evidence);
                  cited_communities := ⋃ (communities_of <$> evidence) |}
       | inl e => inl e
       end)%run.

(** "Completion Service configured to always time out" *)
Definition always_times_out (B : Type) `{Service B} : Prop :=
  forall (b : B) (req : Request), (complete b req).1 = inl RetrievalTimeout.

End QueryEngine.

(* ===================================================================== *)
(** ** Community Engine (section 4.4) *)
(* ===================================================================== *)

Module CommunityEngine.
Import Model.

(** Modelled from the spec: the graph a level is clustered on: its nodes in
    increasing order and the aggregated weight of each unordered pair of
    nodes (a pair of a node with itself carries the weight internal to a
    collapsed community). *)
Record WeightedGraph := {
  nodes : list nat;
  edges : gmap (nat * nat) Q }.

(** A partition of the nodes: each node is sent to its community, which is
    named by one of the nodes; a node not in the map is on its own. *)
Definition community_of (assignment : gmap nat nat) (v : nat) : nat :=
  default v (assignment !! v).

(** Modelled from the spec: what the design leaves open: the
    "modularity-style" objective, the epsilon below which a move does not
    count, and the two bounds. *)
Class ClusteringPolicy := {
  modularity : WeightedGraph -> gmap nat nat -> Q;
  epsilon : Q;
  max_levels : nat;
  max_passes : nat }.

Definition pair_key (u v : nat) : nat * nat :=
  if Nat.leb u v then (u, v) else (v, u).

Definition add_weight (key : nat * nat) (w : Q) (m : gmap (nat * nat) Q)
    : gmap (nat * nat) Q :=
  <[key := Qplus (default 0%Q (m !! key)) w]> m.

(** Modelled from the spec: the entity level: one node per entity, the
    weights of the relationships between two entities added up. *)
Definition entity_graph (g : Graph) : WeightedGraph :=
  {| nodes := seq 0 (length (entities g));
     edges :=
       map_fold
         (fun _ (r : Relationship) m =>
            add_weight (pair_key (source_entity_id r) (target_entity_id r))
              (weight r) m)
         ∅ (relationships g) |}.

(** Modelled from the spec: the communities of a partition, lowest id first. *)
Definition communities (wg : WeightedGraph) (assignment : gmap nat nat) : list nat :=
  merge_sort le
    (elements (list_to_set (community_of assignment <$> nodes wg) : gset nat)).

(** Modelled from the spec: the communities next to [v]: those of its
    neighbours, its own left out, lowest id first. *)
Definition neighbouring (wg : WeightedGraph) (assignment : gmap nat nat) (v : nat)
    : list nat :=
  merge_sort le
    (elements
       ((list_to_set
           (omap (fun kw : nat * nat * Q =>
                    let '(x, y) := kw.1 in
                    if bool_decide (x = v) then Some (community_of assignment y)
                    else if bool_decide (y = v) then Some (community_of assignment x)
                    else None)
                 (map_to_list (edges wg))) : gset nat)
        ∖ {[community_of assignment v]})).

Definition Qlt_bool (x y : Q) : bool := negb (Qle_bool y x).

(** Modelled from the spec: what moving [v] to community [c] adds to the
    modularity. *)
Definition gain `{ClusteringPolicy} (wg : WeightedGraph)
    (assignment : gmap nat nat) (v c : nat) : Q :=
  Qminus (modularity wg (<[v := c]> assignment)) (modularity wg assignment).

(** Modelled from the spec: "the neighboring community that most increases
    modularity, breaking ties by lowest entity id": the candidates come
    lowest id first and only a strictly larger gain replaces the best so
    far. *)
Definition best_move `{ClusteringPolicy} (wg : WeightedGraph)
    (assignment : gmap nat nat) (v : nat) : option (nat * Q) :=
  fold_left
    (fun best c =>
       let here := gain wg assignment v c in
       match best with
       | Some (_, most) => if Qlt_bool most here then Some (c, here) else best
       | None => Some (c, here)
       end)
    (neighbouring wg assignment v) None.

(** Modelled from the spec: one node: it moves when the best gain is "beyond
    an epsilon". *)
Definition move `{ClusteringPolicy} (wg : WeightedGraph)
    (state : gmap nat nat * bool) (v : nat) : gmap nat nat * bool :=
  match best_move wg state.1 v with
  | Some (c, most) =>
      if Qlt_bool epsilon most then (<[v := c]> state.1, true) else state
  | None => state
  end.

(** Modelled from the spec: one sweep over the nodes in id order. *)
Definition sweep `{ClusteringPolicy} (wg : WeightedGraph)
    (assignment : gmap nat nat) : gmap nat nat * bool :=
  fold_left (move wg) (nodes wg) (assignment, false).

(** Modelled from the spec: step (a): sweeps "until no move improves
    modularity beyond an epsilon"; [None] when [passes] sweeps were not
    enough (non-convergence). *)
Fixpoint local_moving `{ClusteringPolicy} (passes : nat) (wg : WeightedGraph)
    (assignment : gmap nat nat) : option (gmap nat nat) :=
  match passes with
  | 0 => None
  | S fewer =>
      let (next, moved) := sweep wg assignment in
      if moved then local_moving fewer wg next else Some next
  end.

(** Modelled from the spec: step (b): "collapse each community into a
    super-node weighted by aggregated internal/external edge weights". *)
Definition collapse (wg : WeightedGraph) (assignment : gmap nat nat)
    : WeightedGraph :=
  {| nodes := communities wg assignment;
     edges :=
       map_fold
         (fun (key : nat * nat) (w : Q) m =>
            add_weight
              (pair_key (community_of assignment key.1)
                        (community_of assignment key.2)) w m)
         ∅ (edges wg) |}.

(** Modelled from the spec: the levels above the one just found, [(wg,
    assignment)]: "repeat at the next level; stop when a level fails to
    reduce the number of communities or a maximum level count is reached". A
    level that does not reduce is not kept. *)
Fixpoint climb `{ClusteringPolicy} (more : nat) (wg : WeightedGraph)
    (assignment : gmap nat nat)
    : error + list (WeightedGraph * gmap nat nat) :=
  match more with
  | 0 => inr [(wg, assignment)]
  | S fewer =>
      let above := collapse wg assignment in
      match local_moving max_passes above ∅ with
      | None => inl CommunityDetectionFailure
      | Some next =>
          if Nat.ltb (length (communities above next)) (length (nodes above))
          then match climb fewer above next with
               | inl e => inl e
               | inr rest => inr ((wg, assignment) :: rest)
               end
          else inr [(wg, assignment)]
      end
  end.

(** In a stack of levels, the nodes of each level above the first are the
    communities of the level below it. *)
Fixpoint chained (stack : list (WeightedGraph * gmap nat nat)) : Prop :=
  match stack with
  | (wg, assignment) :: rest =>
      match rest with
      | (above, _) :: _ => nodes above = communities wg assignment
      | [] => True
      end /\ chained rest
  | [] => True
  end.

(** Modelled from the spec: the parent of community [c], its community
    one level up when there is such a level. *)
Definition parent_in (rest : list (WeightedGraph * gmap nat nat)) (c : nat)
    : option community_id :=
  match rest with
  | (_, above) :: _ => Some (community_of above c)
  | [] => None
  end.

(** Modelled from the spec: the entities under a community, those under
    the nodes it holds. *)
Definition members_of (members : nat -> gset entity_id) (wg : WeightedGraph)
    (assignment : gmap nat nat) (c : nat) : gset entity_id :=
  ⋃ (members <$>
       List.filter (fun v => bool_decide (community_of assignment v = c))
         (nodes wg)).

(** Modelled from the spec: the Community record of community [c]. *)
Definition record (depth : nat) (members : nat -> gset entity_id)
    (parent : nat -> option community_id) (c : nat) : Community :=
  {| community_ident := c; level := depth;
     member_entity_ids := members c;
     parent_community_id := parent c;
     summary := None |}.

(** Modelled from the spec: the Community records of the levels, bottom
    first. [members] gives the entities under each node of the level at
    hand; a community's members are those of its nodes, and its parent is
    its community one level up. *)
Fixpoint render (depth : nat) (members : nat -> gset entity_id)
    (stack : list (WeightedGraph * gmap nat nat)) : list (list Community) :=
  match stack with
  | [] => []
  | (wg, assignment) :: rest =>
      let members_above := members_of members wg assignment in
      (record depth members_above (parent_in rest) <$> communities wg assignment)
      :: render (S depth) members_above rest
  end.

(** Modelled from the spec: [detect_communities(graph)], which has no
    source file.  The entity level is always produced; [max_levels] bounds
    the height of the stack. *)
Definition detect_communities `{ClusteringPolicy} (g : Graph)
    : error + list (list Community) :=
  let wg := entity_graph g in
  match local_moving max_passes wg ∅ with
  | None => inl CommunityDetectionFailure
  | Some assignment =>
      match climb (pred max_levels) wg assignment with
      | inl e => inl e
      | inr stack => inr (render 0 (fun v => {[v]}) stack)
      end
  end.

End CommunityEngine.

(* ===================================================================== *)
(** ** Concrete inputs used by the examples *)
(* ===================================================================== *)

Module Examples.
Import TensorHpp MainCpp Model GraphStore Resolver.
Import Completion Extractor QueryEngine CommunityEngine.

(** A loader that would be noticed: it always succeeds with one tensor. *)
Definition one_tensor_loader (path : string) : load_result :=
  Loaded [(path, Tensor_default)].

Definition to_lower (c : ascii) : ascii :=
  let n := nat_of_ascii c in
  if Nat.leb 65 n && Nat.leb n 90 then ascii_of_nat (n + 32) else c.

Fixpoint lowercase (s : string) : string :=
  match s with
  | EmptyString => EmptyString
  | String c rest => String (to_lower c) (lowercase rest)
  end.

(** Names match up to letter case; nothing else is similar. *)
Definition case_policy : ResolverPolicy :=
  {| normalize := lowercase;
     similarity := fun _ _ => 0%Q;
     similarity_threshold := 1%Q;
     refine_description := String.append |}.

Definition curie_1 : EntityMention :=
  {| mention_chunk := 1; surface_text := "Marie Curie"; mention_type := "person";
     mention_description := "physicist"; confidence := 1%Q |}.

Definition curie_2 : EntityMention :=
  {| mention_chunk := 2; surface_text := "MARIE CURIE"; mention_type := "person";
     mention_description := "chemist"; confidence := 1%Q |}.

Definition sorbonne : EntityMention :=
  {| mention_chunk := 1; surface_text := "Sorbonne"; mention_type := "organization";
     mention_description := "university"; confidence := 1%Q |}.





Definition taught_at : RelationshipMention :=
  {| relation_chunk := 1; source_surface := "Marie Curie";
     target_surface := "Sorbonne"; relation_text := "taught at"; strength := 1%Q |}.

Definition knows_herself : RelationshipMention :=
  {| relation_chunk := 2; source_surface := "Marie Curie";
     target_surface := "marie curie"; relation_text := "knows"; strength := 1%Q |}.

Definition met_nobody : RelationshipMention :=
  {| relation_chunk := 2; source_surface := "Marie Curie";
     target_surface := "Nobody"; relation_text := "met"; strength := 1%Q |}.

Definition two_chunks
    : list (list (list EntityMention * list RelationshipMention)) :=
  [[([curie_1; sorbonne], [taught_at; met_nobody]);
    ([curie_2], [knows_herself; taught_at])]].


(** A backend that never answers in time. *)
Definition dead_backend : Service unit :=
  fun _ _ => (inl RetrievalTimeout, tt).





Definition plain_query : QueryPolicy :=
  {| match_score := fun _ _ _ => 0%Q;
     relevance := fun _ _ => 0%Q;
     top_k := 3;
     hops := 1;
     summary_level := 0;
     rank_evidence := fun _ evidence => evidence;
     synthesis_prompt := fun question _ => String.append "Answer: " question;
     shorten := fun text => substring 0 8 text;
     answer_max_tokens := 128;
     answer_temperature := 0%Q |}.

(** Newman's modularity on rationals: the share of the weight that lies
    inside communities, less what a random graph with the same degrees
    would put there. *)
Definition inside (wg : WeightedGraph) (a : gmap nat nat) (c : nat) : Q :=
  fold_left
    (fun acc (kw : nat * nat * Q) =>
       let '(x, y) := kw.1 in
       if bool_decide (community_of a x = c) && bool_decide (community_of a y = c)
       then Qplus acc (Qmult 2 kw.2) else acc)
    (map_to_list (edges wg)) 0%Q.

Definition touching (wg : WeightedGraph) (a : gmap nat nat) (c : nat) : Q :=
  fold_left
    (fun acc (kw : nat * nat * Q) =>
       let '(x, y) := kw.1 in
       Qplus acc
         (Qplus (if bool_decide (community_of a x = c) then kw.2 else 0%Q)
                (if bool_decide (community_of a y = c) then kw.2 else 0%Q)))
    (map_to_list (edges wg)) 0%Q.

Definition twice_total (wg : WeightedGraph) : Q :=
  fold_left (fun acc (kw : nat * nat * Q) => Qplus acc (Qmult 2 kw.2))
    (map_to_list (edges wg)) 0%Q.

Definition newman (wg : WeightedGraph) (a : gmap nat nat) : Q :=
  let m2 := twice_total wg in
  Qred (fold_left
          (fun acc c =>
             let share := Qdiv (touching wg a c) m2 in
             Qplus acc (Qminus (Qdiv (inside wg a c) m2) (Qmult share share)))
          (communities wg a) 0%Q).

Definition newman_policy : ClusteringPolicy :=
  {| modularity := newman; epsilon := 0%Q; max_levels := 4; max_passes := 10 |}.

Definition nobody (id : nat) : Entity :=
  {| entity_ident := id; canonical_name := ""; entity_type := "";
     aliases := ∅; description := ""; supporting_chunks := ∅ |}.

Definition link (s t : nat) (w : Q) (g : Graph) : Graph :=
  (upsert_relationship s t "linked" w 0 g).1.

(** Two triangles, 0-1-2 and 3-4-5, joined by the light edge 2-3. *)
Definition two_triangles : Graph :=
  link 0 1 1%Q (link 1 2 1%Q (link 0 2 1%Q
    (link 3 4 1%Q (link 4 5 1%Q (link 3 5 1%Q
      (link 2 3 (1 # 10)%Q
         {| entities := nobody <$> seq 0 6; relationships := ∅ |})))))).

(** Sixteen entities: eight heavy pairs, joined two by two into four
    quads, the quads joined by light edges. *)
Definition sixteen : Graph :=
  fold_right (fun i g => link (2 * i) (2 * i + 1) 1%Q g)
    (fold_right (fun i g => link (4 * i + 1) (4 * i + 2) (1 # 2)%Q g)
       (fold_right (fun i g => link (4 * i + 3) (4 * i + 4) (1 # 10)%Q g)
          {| entities := nobody <$> seq 0 16; relationships := ∅ |}
          (seq 0 3))
       (seq 0 4))
    (seq 0 8).

(** The levels detected on [sixteen]: the eight pairs, then the four
    quads. *)
Definition sixteen_levels : list (list Community) :=
  match detect_communities (H := newman_policy) sixteen with
  | inr levels => levels
  | inl _ => []
  end.

End Examples.

(* ===================================================================== *)
(** * Theorems *)
(* ===================================================================== *)

(** ** tensor.hpp: the accessors are constant *)

Module TensorFacts.
Import TensorHpp.

(** C10.  Every [Tensor], whether default-constructed or built from a
    shape and a dtype, answers [byte_size() = 0], [shape() = {}],
    [raw() = nullptr] and [data<T>() = nullptr] for every [T]. *)
Theorem tensor_accessors_are_stubs (t : Tensor) (dims : list Z) (dtype : DType) :
  (t = Tensor_default \/ t = Tensor_of dims dtype) /\
  byte_size t = 0%N /\
  shape t = [] /\
  raw t = nullptr /\
  (forall T : Type, data T t = nullptr) /\
  byte_size (Tensor_of dims dtype) = byte_size Tensor_default /\
  shape (Tensor_of dims dtype) = [] /\
  raw (Tensor_of dims dtype) = nullptr /\
  (forall T : Type, data T (Tensor_of dims dtype) = nullptr).
Proof.
  destruct t. repeat split; try reflexivity. left; reflexivity.
Qed.

End TensorFacts.

(** ** main.cpp: what the parsing loop reads *)

Module MainFacts.
Import TensorHpp MainCpp Examples.

(** One turn of the loop. *)
Lemma parse_loop_step args i mp :
  parse_loop args i mp =
    if lt_dec i (length args) then
      if model_flag args i then parse_loop args (S (S i)) (arg_at args (S i))
      else parse_loop args (S i) mp
    else mp.
Proof.
  rewrite parse_loop_equation_1 at 1.
  destruct (lt_dec i (length args)); simpl; [|reflexivity].
  unfold model_flag. destruct (_ && _); reflexivity.
Qed.

Example parse_args_plain : parse_args ["--model"; "m.onnx"] = "m.onnx".
Proof. reflexivity. Qed.

Example parse_args_last_wins :
  parse_args ["--model"; "a.onnx"; "--prompt"; "hi"; "--model"; "b.onnx"] = "b.onnx".
Proof. reflexivity. Qed.

Example parse_args_trailing_flag : parse_args ["--model"; "a.onnx"; "--model"] = "a.onnx".
Proof. reflexivity. Qed.

Example main_loads :
  main one_tensor_loader ["--model"; "m.onnx"]
  = ([Cout "Loading model from: "; Cout "m.onnx"; CoutEndl; LoadOnnx "m.onnx";
      Cout "Successfully loaded "; CoutSize 1; Cout " initializers:"; CoutEndl;
      Cout " - "; Cout "m.onnx"; CoutEndl], Returns 0%Z).
Proof. reflexivity. Qed.

Lemma arg_at_outside args i : length args <= i -> arg_at args i = "".
Proof. intros H. unfold arg_at. apply nth_overflow. exact H. Qed.

Lemma model_flag_inside args i : model_flag args i = true -> S i < length args.
Proof.
  unfold model_flag. intros [_ H]%andb_true_iff.
  apply Nat.ltb_lt in H. lia.
Qed.

Lemma model_flag_holds args i :
  model_flag args i = true -> args !! i = Some "--model".
Proof.
  intros H. pose proof (model_flag_inside _ _ H) as Hi.
  unfold model_flag in H. apply andb_true_iff in H as [H _].
  apply String.eqb_eq in H. unfold arg_at in H.
  destruct (args !! i) as [a|] eqn:E.
  - erewrite nth_lookup_Some in H by exact E. congruence.
  - apply lookup_ge_None in E. lia.
Qed.

Lemma last_where_S f from n :
  last_where f from (S n) =
    match last_where f (S from) n with
    | Some k => Some k
    | None => if f from then Some from else None
    end.
Proof.
  unfold last_where. simpl. destruct (f from); [|destruct (last _); reflexivity].
  rewrite last_cons. reflexivity.
Qed.

Lemma last_where_None f from n :
  (forall k, from <= k < from + n -> f k = false) -> last_where f from n = None.
Proof.
  revert from. induction n as [|n IH]; intros from H; [reflexivity|].
  rewrite last_where_S, IH by (intros; apply H; lia).
  rewrite H by lia. reflexivity.
Qed.

Lemma last_where_Some f from n i :
  from <= i < from + n -> f i = true ->
  (forall j, i < j < from + n -> f j = false) ->
  last_where f from n = Some i.
Proof.
  revert from. induction n as [|n IH]; intros from Hi Hf Hlast; [lia|].
  rewrite last_where_S.
  destruct (decide (i = from)) as [->|Hne].
  - rewrite last_where_None by (intros; apply Hlast; lia).
    rewrite Hf. reflexivity.
  - rewrite (IH (S from)); [reflexivity|lia|exact Hf|].
    intros; apply Hlast; lia.
Qed.

Lemma read_flag_eq args i :
  read_flag args i = model_flag args i && negb (consumed args i).
Proof. reflexivity. Qed.

(** Loop invariant: entered at a position [i] that is not a consumed
    value, the loop returns the argument after the last ["--model"] it
    reads from [i] on, and the incoming [model_path] when it reads none. *)
Lemma parse_loop_reads args n :
  forall i mp,
    length args - i <= n -> i <= length args -> consumed args i = false ->
    parse_loop args i mp =
      match last_where (read_flag args) i (length args - i) with
      | Some k => arg_at args (S k)
      | None => mp
      end.
Proof.
  induction n as [|n IH]; intros i mp Hn Hi Hc; rewrite parse_loop_step.
  - destruct (lt_dec i (length args)); [lia|].
    replace (length args - i) with 0 by lia. reflexivity.
  - destruct (lt_dec i (length args)) as [Hlt|Hge].
    2:{ replace (length args - i) with 0 by lia. reflexivity. }
    replace (length args - i) with (S (length args - S i)) by lia.
    rewrite last_where_S, (read_flag_eq args i), Hc, andb_true_r.
    destruct (model_flag args i) eqn:Hflag.
    + pose proof (model_flag_inside _ _ Hflag) as Hin.
      assert (Hc1 : consumed args (S i) = true)
        by (simpl; rewrite Hc, Hflag; reflexivity).
      assert (Hc2 : consumed args (S (S i)) = false)
        by (change (negb (consumed args (S i)) && model_flag args (S i) = false);
            rewrite Hc1; reflexivity).
      rewrite IH by (try lia; exact Hc2).
      replace (length args - S i) with (S (length args - S (S i))) by lia.
      rewrite last_where_S, (read_flag_eq args (S i)), Hc1, andb_false_r.
      destruct (last_where _ _ _); reflexivity.
    + assert (Hc1 : consumed args (S i) = false)
        by (simpl; rewrite Hc, Hflag; reflexivity).
      rewrite IH by (try lia; exact Hc1).
      destruct (last_where _ _ _); reflexivity.
Qed.

Lemma parse_args_reads args :
  parse_args args =
    match last_where (read_flag args) 0 (length args) with
    | Some k => arg_at args (S k)
    | None => ""
    end.
Proof.
  unfold parse_args.
  rewrite (parse_loop_reads args (length args)) by (try lia; reflexivity).
  rewrite Nat.sub_0_r. reflexivity.
Qed.

Lemma read_flag_inside args i : read_flag args i = true -> S i < length args.
Proof.
  unfold read_flag. intros [H _]%andb_true_iff. exact (model_flag_inside _ _ H).
Qed.

Lemma no_flag_no_read args :
  (forall i : nat, args !! i = Some "--model" -> args !! S i = None) ->
  forall i, read_flag args i = false.
Proof.
  intros H i. destruct (read_flag args i) eqn:E; [|reflexivity].
  apply andb_true_iff in E as [E _].
  pose proof (model_flag_inside _ _ E) as Hin.
  apply model_flag_holds, H, lookup_ge_None in E. lia.
Qed.

(** C8.  When no ["--model"] of the argument list has an argument after
    it, the loop leaves [model_path] empty and [main] prints the usage
    line, returns 1 and never enters the loader. *)
Theorem main_without_model_prints_usage
    (load : string -> load_result) (args : list string)
    (Hnone : forall i : nat, args !! i = Some "--model" -> args !! S i = None) :
  parse_args args = "" /\
  main load args = (print_usage, Returns 1%Z) /\
  forall path, LoadOnnx path ∉ (main load args).1.
Proof.
  assert (Hp : parse_args args = "").
  { rewrite parse_args_reads, last_where_None; [reflexivity|].
    intros k _. apply no_flag_no_read, Hnone. }
  split; [exact Hp|].
  assert (Hm : main load args = (print_usage, Returns 1%Z))
    by (unfold main; rewrite Hp; reflexivity).
  split; [exact Hm|].
  intros path. rewrite Hm. simpl. unfold print_usage.
  intros Hin%list_elem_of_singleton. discriminate.
Qed.

Lemma main_without_model_prints_usage_witness :
  main one_tensor_loader ["--prompt"; "hello"; "--model"]
  = ([Cout usage_line], Returns 1%Z).
Proof.
  refine (proj1 (proj2
    (main_without_model_prints_usage one_tensor_loader
       ["--prompt"; "hello"; "--model"] _))).
  intros [|[|[|i]]]; simpl; intros H; try reflexivity; discriminate.
Defined.

(** C9, as amended.  [model_path] ends as the argument after the last
    ["--model"] that the loop reads as the option, that is, one with a
    following argument that is not itself the value taken by the
    ["--model"] just before it; when the loop reads none, [model_path]
    stays empty.  Nothing else in the list has any influence. *)
Theorem parse_args_takes_last_read_flag (args : list string) :
  (forall i,
      read_flag args i = true ->
      (forall j, i < j -> read_flag args j = false) ->
      parse_args args = arg_at args (S i)) /\
  ((forall i, read_flag args i = false) -> parse_args args = "").
Proof.
  split.
  - intros i Hi Hlast. rewrite parse_args_reads.
    rewrite (last_where_Some _ _ _ i); [reflexivity| |exact Hi|].
    + apply read_flag_inside in Hi. lia.
    + intros j [Hj _]. apply Hlast, Hj.
  - intros Hnone. rewrite parse_args_reads, last_where_None; [reflexivity|].
    intros k _. apply Hnone.
Qed.

Lemma parse_args_takes_last_read_flag_witness :
  parse_args ["--model"; "--model"; "x"; "--model"] = "--model".
Proof.
  refine (proj1 (parse_args_takes_last_read_flag
                   ["--model"; "--model"; "x"; "--model"]) 0 _ _).
  - reflexivity.
  - intros [|[|[|[|j]]]] Hj; try lia; try reflexivity.
    unfold read_flag, model_flag, arg_at. destruct j; reflexivity.
Defined.

(** C9 as it is written fails: in [--model --model x] the last
    ["--model"] with a following argument is the second one, followed by
    [x], but the loop has taken that second ["--model"] as the value of
    the first and never tests it. *)
Lemma last_model_flag_is_not_always_read :
  following_last_model_flag ["--model"; "--model"; "x"] = Some "x" /\
  parse_args ["--model"; "--model"; "x"] = "--model" /\
  ~ (forall (args : list string) (v : string),
        following_last_model_flag args = Some v -> parse_args args = v).
Proof.
  split; [reflexivity|]. split; [reflexivity|].
  intros H. specialize (H ["--model"; "--model"; "x"] "x" eq_refl).
  discriminate H.
Qed.

End MainFacts.


(** ** main.cpp: bounds, composition of argument lists, exit codes *)

Module MainMoreFacts.
Import TensorHpp MainCpp MainCppMore Examples.

Lemma arg_at_lookup args i : i < length args -> args !! i = Some (arg_at args i).
Proof.
  intros Hi. destruct (lookup_lt_is_Some_2 args i Hi) as [a Ha].
  rewrite Ha. unfold arg_at. erewrite nth_lookup_Some by exact Ha. reflexivity.
Qed.

(** One turn of the checked loop. *)
Lemma parse_loop_checked_step args i mp :
  parse_loop_checked args i mp =
    if lt_dec i (length args) then
      match args !! i with
      | None => None
      | Some a =>
          if String.eqb a "--model" && Nat.ltb (i + 1)%nat (length args) then
            match args !! S i with
            | None => None
            | Some v => parse_loop_checked args (S (S i)) v
            end
          else parse_loop_checked args (S i) mp
      end
    else Some mp.
Proof.
  rewrite parse_loop_checked_equation_1 at 1.
  destruct (lt_dec i (length args)); simpl; [|reflexivity].
  destruct (args !! i) as [a|]; simpl; [|reflexivity].
  destruct (_ && _); simpl; [|reflexivity].
  destruct (args !! S i); reflexivity.
Qed.

Lemma parse_loop_checked_runs args n :
  forall i mp,
    length args - i <= n ->
    parse_loop_checked args i mp = Some (parse_loop args i mp).
Proof.
  induction n as [|n IH]; intros i mp Hn;
    rewrite parse_loop_checked_step, MainFacts.parse_loop_step;
    destruct (lt_dec i (length args)) as [Hlt|Hge]; try reflexivity; try lia.
  rewrite (arg_at_lookup args i Hlt). unfold model_flag.
  destruct (String.eqb (arg_at args i) "--model"
            && Nat.ltb (i + 1)%nat (length args)) eqn:Hflag.
  - apply andb_true_iff in Hflag as [_ Hin]. apply Nat.ltb_lt in Hin.
    rewrite (arg_at_lookup args (S i)) by lia. apply IH. lia.
  - apply IH. lia.
Qed.

(** X1.  The loop never reads outside the vector: with every [args[i]] and
    [args[++i]] checked, it runs to its end on every argument list and
    leaves the same [model_path]. *)
Theorem parse_loop_stays_in_bounds (args : list string) :
  parse_loop_checked args 0 "" = Some (parse_args args).
Proof. apply (parse_loop_checked_runs args (length args)). lia. Qed.

(** *** The loop as a scan of the list *)

Lemma drop_arg_at args i :
  i < length args -> drop i args = arg_at args i :: drop (S i) args.
Proof. intros Hi. apply drop_S, arg_at_lookup, Hi. Qed.

Lemma parse_loop_scan args n :
  forall i mp,
    length args - i <= n -> parse_loop args i mp = scan (drop i args) mp.
Proof.
  induction n as [|n IH]; intros i mp Hn; rewrite MainFacts.parse_loop_step;
    destruct (lt_dec i (length args)) as [Hlt|Hge]; try lia;
    try (rewrite drop_ge by lia; reflexivity).
  rewrite (drop_arg_at args i Hlt). unfold model_flag.
  destruct (lt_dec (S i) (length args)) as [Hlt'|Hge'].
  - rewrite (drop_arg_at args (S i) Hlt').
    replace (Nat.ltb (i + 1) (length args)) with true
      by (symmetry; apply Nat.ltb_lt; lia).
    rewrite andb_true_r. cbn [scan].
    destruct (String.eqb (arg_at args i) "--model").
    + apply IH. lia.
    + rewrite IH by lia. rewrite (drop_arg_at args (S i) Hlt'). reflexivity.
  - replace (Nat.ltb (i + 1) (length args)) with false
      by (symmetry; apply Nat.ltb_ge; lia).
    rewrite andb_false_r, IH by lia.
    rewrite (drop_ge args (S i)) by lia. reflexivity.
Qed.

Lemma parse_args_scan args : parse_args args = scan args "".
Proof.
  unfold parse_args. rewrite (parse_loop_scan args (length args)) by lia.
  reflexivity.
Qed.

(** Induction that follows [scan]: it leaves a list by one or by two. *)
Lemma list_ind_by_two {A} (P : list A -> Prop) :
  P [] -> (forall a, P [a]) ->
  (forall a b l, P l -> P (b :: l) -> P (a :: b :: l)) ->
  forall l, P l.
Proof.
  intros H0 H1 H2 l.
  assert (H : P l /\ forall a, P (a :: l)); [|apply H].
  induction l as [|b l [IHl IHbl]]; [split; [exact H0|exact H1]|].
  split; [apply IHbl|]. intros a. apply H2; [exact IHl|apply IHbl].
Qed.

Lemma scan_two a b l mp :
  scan (a :: b :: l) mp =
    if String.eqb a "--model" then scan l b else scan (b :: l) mp.
Proof. reflexivity. Qed.

Lemma scan_skip a args mp :
  a <> "--model" -> scan (a :: args) mp = scan args mp.
Proof.
  intros Ha. apply String.eqb_neq in Ha. destruct args as [|v rest]; simpl.
  - reflexivity.
  - rewrite Ha. reflexivity.
Qed.

Lemma scan_no_flag args mp : "--model" ∉ args -> scan args mp = mp.
Proof.
  induction args as [|a args IH]; intros Hno; [reflexivity|].
  apply not_elem_of_cons in Hno as [Ha Hno].
  rewrite scan_skip by congruence. apply IH, Hno.
Qed.

Lemma last_cons_cons {A} (a b : A) l : last (a :: b :: l) = last (b :: l).
Proof. reflexivity. Qed.

Lemma last_drop_two {A} (a b x : A) l :
  last (a :: b :: l) <> Some x -> last l <> Some x.
Proof.
  destruct l as [|c l]; [discriminate|]. rewrite !last_cons_cons. auto.
Qed.

Lemma scan_app args extra :
  last args <> Some "--model" ->
  forall mp, scan (args ++ extra) mp = scan extra (scan args mp).
Proof.
  induction args as [| a | a b l IHl IHbl] using list_ind_by_two; intros Hlast mp.
  - reflexivity.
  - simpl in Hlast. rewrite <- app_comm_cons, app_nil_l.
    rewrite scan_skip by congruence. reflexivity.
  - change ((a :: b :: l) ++ extra) with (a :: b :: (l ++ extra)).
    rewrite !scan_two. destruct (String.eqb a "--model").
    + apply IHl. eapply last_drop_two, Hlast.
    + apply (IHbl Hlast).
Qed.

Lemma parse_loop_from_start args mp : parse_loop args 0 mp = scan args mp.
Proof.
  rewrite (parse_loop_scan args (length args)) by lia. reflexivity.
Qed.

Lemma scan_follows_a_flag args :
  forall mp,
    scan args mp = mp \/
    exists i, args !! i = Some "--model" /\ args !! S i = Some (scan args mp).
Proof.
  induction args as [| a | a b l IHl IHbl] using list_ind_by_two; intros mp.
  - left. reflexivity.
  - left. reflexivity.
  - rewrite scan_two. destruct (String.eqb a "--model") eqn:Ea.
    + apply String.eqb_eq in Ea. subst a. right.
      destruct (IHl b) as [->|(i & Hi & Hv)].
      * exists 0. split; reflexivity.
      * exists (S (S i)). split; assumption.
    + destruct (IHbl mp) as [->|(i & Hi & Hv)]; [left; reflexivity|].
      right. exists (S i). split; assumption.
Qed.

(** X2.  [model_path] is never made up: after the loop it is empty or it
    is an argument that stands right after a ["--model"]. *)
Theorem model_path_follows_a_flag (args : list string) :
  parse_args args = "" \/
  exists i, args !! i = Some "--model" /\ args !! S i = Some (parse_args args).
Proof. rewrite parse_args_scan. apply scan_follows_a_flag. Qed.

(** X3.  Arguments in front that are not ["--model"] are ignored: the
    loop leaves the same [model_path] with or without them. *)
Theorem leading_arguments_are_ignored (front args : list string) :
  "--model" ∉ front -> parse_args (front ++ args) = parse_args args.
Proof.
  intros Hno. rewrite !parse_args_scan.
  induction front as [|a front IH]; [reflexivity|].
  apply not_elem_of_cons in Hno as [Ha Hno].
  rewrite <- app_comm_cons, scan_skip by congruence. apply IH, Hno.
Qed.

Lemma leading_arguments_are_ignored_witness :
  parse_args (["--prompt"; "hello"] ++ ["--model"; "m.onnx"])
  = parse_args ["--model"; "m.onnx"].
Proof.
  apply leading_arguments_are_ignored.
  intros Hin. apply elem_of_cons in Hin as [Hin|Hin]; [discriminate|].
  apply list_elem_of_singleton in Hin. discriminate.
Defined.

(** X4.  An argument list that does not end in ["--model"] can be parsed
    in two pieces: running the loop on the whole list gives what the loop
    gives on the second piece when it starts from the [model_path] of the
    first. *)
Theorem parsing_composes (args more : list string) :
  last args <> Some "--model" ->
  parse_args (args ++ more) = parse_loop more 0 (parse_args args).
Proof.
  intros Hlast. rewrite parse_loop_from_start, !parse_args_scan.
  apply scan_app, Hlast.
Qed.

Lemma parsing_composes_witness :
  parse_args (["--model"; "a.onnx"; "--prompt"; "hi"] ++ ["--model"; "b.onnx"])
  = parse_loop ["--model"; "b.onnx"] 0 (parse_args ["--model"; "a.onnx"; "--prompt"; "hi"]).
Proof. apply parsing_composes. discriminate. Defined.

(** X5.  The last ["--model" v] wins: appended to an argument list that
    does not end in ["--model"], it sets [model_path] to [v] whatever came
    before. *)
Theorem final_model_flag_wins (args : list string) (v : string) :
  last args <> Some "--model" ->
  parse_args (args ++ ["--model"; v]) = v.
Proof.
  intros Hlast. rewrite parse_args_scan, scan_app by exact Hlast. reflexivity.
Qed.

Lemma final_model_flag_wins_witness :
  parse_args (["--model"; "a.onnx"; "--verbose"] ++ ["--model"; "b.onnx"]) = "b.onnx".
Proof. apply final_model_flag_wins. discriminate. Defined.

(** X6.  Arguments at the end that are not ["--model"] are ignored, as
    long as they do not become the value of a ["--model"] that ended the
    list before them. *)
Theorem trailing_arguments_are_ignored (args back : list string) :
  last args <> Some "--model" -> "--model" ∉ back ->
  parse_args (args ++ back) = parse_args args.
Proof.
  intros Hlast Hno. rewrite !parse_args_scan, scan_app by exact Hlast.
  apply scan_no_flag, Hno.
Qed.

Lemma trailing_arguments_are_ignored_witness :
  parse_args (["--model"; "m.onnx"] ++ ["--max-tokens"; "16"])
  = parse_args ["--model"; "m.onnx"].
Proof.
  apply trailing_arguments_are_ignored; [discriminate|].
  intros Hin. apply elem_of_cons in Hin as [Hin|Hin]; [discriminate|].
  apply list_elem_of_singleton in Hin. discriminate.
Defined.

(** X7.  When no ["--model"] stands right after another ["--model"], the
    loop does set [model_path] to the argument after the last ["--model"]
    that has a following argument, and leaves it empty when there is none. *)
Theorem last_model_flag_is_read_when_flags_are_apart (args : list string) :
  (forall i : nat, args !! i = Some "--model" -> args !! S i <> Some "--model") ->
  parse_args args = default "" (following_last_model_flag args).
Proof.
  intros Hapart.
  assert (Hread : forall i, read_flag args i = model_flag args i).
  { intros i. unfold read_flag. destruct (consumed args i) eqn:Hc;
      [|apply andb_true_r].
    rewrite andb_false_r. destruct i as [|j]; [discriminate|].
    simpl in Hc. apply andb_true_iff in Hc as [_ Hj].
    apply MainFacts.model_flag_holds, Hapart in Hj.
    destruct (model_flag args (S j)) eqn:Hsj; [|reflexivity].
    apply MainFacts.model_flag_holds in Hsj. contradiction. }
  rewrite MainFacts.parse_args_reads.
  unfold following_last_model_flag, model_flags, last_where.
  rewrite (filter_ext_in (read_flag args) (model_flag args))
    by (intros; apply Hread).
  destruct (last _); reflexivity.
Qed.

Lemma last_model_flag_is_read_when_flags_are_apart_witness :
  parse_args ["--model"; "a.onnx"; "--model"; "b.onnx"; "--model"]
  = default "" (following_last_model_flag
                  ["--model"; "a.onnx"; "--model"; "b.onnx"; "--model"]).
Proof.
  apply last_model_flag_is_read_when_flags_are_apart.
  intros [|[|[|[|[|i]]]]]; simpl; intros H; try discriminate.
Defined.

(** *** What [main] does with the path *)

Lemma empty_true s : empty s = true <-> s = "".
Proof. destruct s; simpl; split; intros H; congruence. Qed.

Lemma listing_has_no_load (inits : list (string * Tensor)) :
  List.filter is_load
    (flat_map (fun pair => [Cout " - "; Cout (fst pair); CoutEndl]) inits) = [].
Proof. induction inits as [|p inits IH]; [reflexivity|exact IH]. Qed.

Lemma listing_has_no_cerr (inits : list (string * Tensor)) :
  List.filter is_cerr
    (flat_map (fun pair => [Cout " - "; Cout (fst pair); CoutEndl]) inits) = [].
Proof. induction inits as [|p inits IH]; [reflexivity|exact IH]. Qed.

(** X8.  [main] returns 0 exactly when the loop found a non-empty path and
    the loader returned its map for it; it returns 1 exactly when the path
    is empty or the loader throws a [std::exception]; and when the loader
    throws anything else [main] does not return: nothing catches the
    exception and the run ends in [std::terminate]. *)
Theorem main_exit_code (load : string -> load_result) (args : list string) :
  ((main load args).2 = Returns 0%Z <->
   parse_args args <> "" /\ exists inits, load (parse_args args) = Loaded inits) /\
  ((main load args).2 = Returns 1%Z <->
   parse_args args = "" \/ exists what, load (parse_args args) = Throws what) /\
  ((main load args).2 = Terminates <->
   parse_args args <> "" /\ load (parse_args args) = ThrowsOther) /\
  ((main load args).2 = Returns 0%Z \/ (main load args).2 = Returns 1%Z \/
   (main load args).2 = Terminates).
Proof.
  unfold main. destruct (empty (parse_args args)) eqn:E.
  - apply empty_true in E. simpl. repeat split; try discriminate; auto.
    + intros [Hne _]. contradiction.
    + intros [Hne _]. contradiction.
  - assert (Hne : parse_args args <> "")
      by (intros H; apply empty_true in H; congruence).
    destruct (load (parse_args args)) as [what| |inits]; simpl.
    + repeat split; try discriminate; eauto.
      * intros [_ [inits Hl]]. discriminate.
      * intros [_ Hl]. discriminate.
    + repeat split; try discriminate; eauto.
      * intros [_ [inits Hl]]. discriminate.
      * intros [Hp|[what Hl]]; [contradiction|discriminate].
    + repeat split; try discriminate; eauto.
      * intros [Hp|[what Hl]]; [contradiction|discriminate].
      * intros [_ Hl]. discriminate.
Qed.

(** X9.  [main] enters the loader at most once, and only for the path the
    loop found: with an empty [model_path] it never calls it, otherwise it
    calls it once, on [model_path]. *)
Theorem main_loads_the_parsed_path_once
    (load : string -> load_result) (args : list string) :
  List.filter is_load (main load args).1 =
    if empty (parse_args args) then [] else [LoadOnnx (parse_args args)].
Proof.
  unfold main. destruct (empty (parse_args args)); [reflexivity|].
  destruct (load (parse_args args)) as [what| |inits]; simpl;
    [reflexivity..|].
  rewrite listing_has_no_load. reflexivity.
Qed.

(** X10.  [main] writes to [std::cerr] only when the loader throws a
    [std::exception], and then what it writes is ["Error: "], the
    exception's [what()] and the end of the line; the usage message and
    the listing go to [std::cout]. *)
Theorem main_stderr_only_on_throw
    (load : string -> load_result) (args : list string) :
  List.filter is_cerr (main load args).1 =
    if empty (parse_args args) then []
    else match load (parse_args args) with
         | Throws what => [Cerr "Error: "; Cerr what; CerrEndl]
         | ThrowsOther | Loaded _ => []
         end.
Proof.
  unfold main. destruct (empty (parse_args args)); [reflexivity|].
  destruct (load (parse_args args)) as [what| |inits]; simpl;
    [reflexivity..|].
  rewrite listing_has_no_cerr. reflexivity.
Qed.

(** X11.  An empty string given as the path counts as no path: a final
    ["--model" ""] makes [main] print the usage line and return 1 without
    loading, even when an earlier ["--model"] named a model. *)
Theorem empty_path_value_prints_usage
    (load : string -> load_result) (args : list string) :
  last args <> Some "--model" ->
  main load (args ++ ["--model"; ""]) = (print_usage, Returns 1%Z).
Proof.
  intros Hlast. unfold main.
  rewrite parse_args_scan, scan_app by exact Hlast. reflexivity.
Qed.

Lemma empty_path_value_prints_usage_witness :
  main one_tensor_loader (["--model"; "m.onnx"] ++ ["--model"; ""])
  = ([Cout usage_line], Returns 1%Z).
Proof. apply empty_path_value_prints_usage. discriminate. Defined.

End MainMoreFacts.

(** ** Graph Store and Resolver: no dangling edges, rejected mutations *)

Module GraphFacts.
Import Model GraphStore Resolver.

(** The scenarios of section 8 on [Examples.two_chunks]: the two spellings
    of one name end in one entity, the relation to an entity that is never
    mentioned is dropped and counted, the self-loop is rejected and
    counted, and the two mentions of the same edge add up. *)
Example two_chunks_resolved :
  let st := ingest (H := Examples.case_policy) Examples.two_chunks empty_graph in
  length (entities (graph st)) = 2 /\
  dropped_relations st = 1 /\
  rejected_mutations st = 1 /\
  (weight <$> relationships (graph st) !! (0, 1, "taught at")) = Some (2 # 1)%Q.
Proof. vm_compute. repeat split. Qed.

Lemma upsert_entity_relationships e g :
  relationships (upsert_entity e g) = relationships g.
Proof. unfold upsert_entity. destruct (entities g !! entity_ident e); reflexivity. Qed.

(** The arena only grows: an id that names an entity keeps naming one. *)
Lemma upsert_entity_keeps e g i :
  is_Some (entities g !! i) -> is_Some (entities (upsert_entity e g) !! i).
Proof.
  intros Hi. unfold upsert_entity.
  destruct (entities g !! entity_ident e) eqn:E; simpl.
  - apply lookup_lt_is_Some. rewrite length_insert.
    apply lookup_lt_is_Some, Hi.
  - apply lookup_lt_is_Some. rewrite length_app. simpl.
    apply lookup_lt_is_Some in Hi. lia.
Qed.

Lemma no_dangling_upsert_entity e g :
  no_dangling g -> no_dangling (upsert_entity e g).
Proof.
  intros Hg key r Hr. rewrite upsert_entity_relationships in Hr.
  destruct (Hg key r Hr) as [Hs Ht].
  split; apply upsert_entity_keeps; assumption.
Qed.

Lemma no_dangling_resolve_entity_mention `{ResolverPolicy} g m :
  no_dangling g -> no_dangling (resolve_entity_mention g m).
Proof.
  intros Hg. unfold resolve_entity_mention.
  destruct (find_candidate m g); apply no_dangling_upsert_entity, Hg.
Qed.

Lemma has_entity_true g i : has_entity g i = true <-> is_Some (entities g !! i).
Proof. unfold has_entity. apply bool_decide_eq_true. Qed.

(** What the store answers: either the edge went in and both endpoints
    exist, or the graph is handed back as it was, with the violation. *)
Lemma upsert_relationship_cases src tgt rel w c g :
  (src <> tgt /\ is_Some (entities g !! src) /\ is_Some (entities g !! tgt) /\
   upsert_relationship src tgt rel w c g =
     ({| entities := entities g;
         relationships :=
           <[(src, tgt, rel) :=
               strengthened src tgt rel w c (relationships g !! (src, tgt, rel))]>
             (relationships g) |}, None))
  \/ upsert_relationship src tgt rel w c g = (g, Some GraphInvariantViolation).
Proof.
  unfold upsert_relationship.
  destruct (bool_decide_reflect (src = tgt)) as [->|Hne]; [right; reflexivity|].
  destruct (has_entity g src) eqn:Hs; [|right; reflexivity].
  destruct (has_entity g tgt) eqn:Ht; [|right; reflexivity].
  left. apply has_entity_true in Hs, Ht. repeat split; assumption.
Qed.

Lemma strengthened_endpoints src tgt rel w c old :
  source_entity_id (strengthened src tgt rel w c old) = src /\
  target_entity_id (strengthened src tgt rel w c old) = tgt.
Proof. destruct old; split; reflexivity. Qed.

Lemma no_dangling_upsert_relationship src tgt rel w c g :
  no_dangling g -> no_dangling (upsert_relationship src tgt rel w c g).1.
Proof.
  intros Hg.
  destruct (upsert_relationship_cases src tgt rel w c g)
    as [(_ & Hs & Ht & ->)| ->]; [|exact Hg].
  intros key r. simpl. rewrite lookup_insert.
  case_decide as Hk.
  - intros [= <-].
    destruct (strengthened_endpoints src tgt rel w c
                (relationships g !! (src, tgt, rel))) as [-> ->].
    split; assumption.
  - apply Hg.
Qed.

Lemma store_relation_graph rm s t st :
  graph (store_relation rm s t st) =
    (upsert_relationship s t (relation_text rm) (strength rm)
       (relation_chunk rm) (graph st)).1.
Proof.
  unfold store_relation.
  destruct (upsert_relationship _ _ _ _ _ _) as [g [e|]]; reflexivity.
Qed.

Lemma no_dangling_resolve_relation `{ResolverPolicy} st rm :
  no_dangling (graph st) -> no_dangling (graph (resolve_relation st rm)).
Proof.
  intros Hg. unfold resolve_relation.
  destruct (endpoints rm (graph st)) as [[s t]|]; [|exact Hg].
  rewrite store_relation_graph. apply no_dangling_upsert_relationship, Hg.
Qed.

Lemma no_dangling_resolve_deferred `{ResolverPolicy} st rm :
  no_dangling (graph st) -> no_dangling (graph (resolve_deferred st rm)).
Proof.
  intros Hg. unfold resolve_deferred.
  destruct (endpoints rm (graph st)) as [[s t]|]; [|exact Hg].
  rewrite store_relation_graph. apply no_dangling_upsert_relationship, Hg.
Qed.

(** A property kept by every step is kept by the whole fold. *)
Lemma fold_left_keeps {A B} (P : A -> Prop) (f : A -> B -> A) (l : list B) :
  (forall a b, P a -> P (f a b)) -> forall a, P a -> P (fold_left f l a).
Proof.
  intros Hstep. induction l as [|b l IH]; intros a Ha; [exact Ha|].
  simpl. apply IH, Hstep, Ha.
Qed.

Lemma no_dangling_resolve `{ResolverPolicy} st set :
  no_dangling (graph st) -> no_dangling (graph (resolve st set)).
Proof.
  intros Hg. unfold resolve.
  apply (fold_left_keeps (fun s => no_dangling (graph s))).
  - intros; apply no_dangling_resolve_relation; assumption.
  - simpl. apply (fold_left_keeps no_dangling); [|exact Hg].
    intros; apply no_dangling_resolve_entity_mention; assumption.
Qed.

Lemma no_dangling_resolve_batch `{ResolverPolicy} st batch :
  no_dangling (graph st) -> no_dangling (graph (resolve_batch st batch)).
Proof.
  intros Hg. unfold resolve_batch.
  apply (fold_left_keeps (fun s => no_dangling (graph s))).
  - intros; apply no_dangling_resolve_deferred; assumption.
  - simpl. apply (fold_left_keeps (fun s => no_dangling (graph s))); [|exact Hg].
    intros; apply no_dangling_resolve; assumption.
Qed.

Lemma no_dangling_empty : no_dangling empty_graph.
Proof. intros key r Hr. simpl in Hr. rewrite lookup_empty in Hr. discriminate. Qed.

(** C1.  Ingesting any sequence of batches of mention sets into a graph
    without dangling edges yields a graph without dangling edges, and an
    [upsert_relationship] with a missing endpoint is answered with
    [GraphInvariantViolation] and stores nothing. *)
Theorem ingest_leaves_no_dangling_edge `{ResolverPolicy}
    (batches : list (list (list EntityMention * list RelationshipMention)))
    (g : Graph) :
  (no_dangling g -> no_dangling (graph (ingest batches g))) /\
  (forall src tgt rel w c,
      entities g !! src = None \/ entities g !! tgt = None ->
      upsert_relationship src tgt rel w c g = (g, Some GraphInvariantViolation)).
Proof.
  split.
  - intros Hg. unfold ingest.
    apply (fold_left_keeps (fun s => no_dangling (graph s))); [|exact Hg].
    intros; apply no_dangling_resolve_batch; assumption.
  - intros src tgt rel w c Hmiss.
    destruct (upsert_relationship_cases src tgt rel w c g)
      as [(_ & [? Hs] & [? Ht] & _)|Hrej]; [|exact Hrej].
    destruct Hmiss; congruence.
Qed.

Lemma ingest_leaves_no_dangling_edge_witness :
  no_dangling
    (graph (ingest (H := Examples.case_policy) Examples.two_chunks empty_graph)) /\
  upsert_relationship 0 7 "met" 1%Q 2 empty_graph
    = (empty_graph, Some GraphInvariantViolation).
Proof.
  pose proof (ingest_leaves_no_dangling_edge (H := Examples.case_policy)
                Examples.two_chunks empty_graph) as [Hkeep Hrej].
  split.
  - apply Hkeep, no_dangling_empty.
  - apply Hrej. right. reflexivity.
Defined.



End GraphFacts.

(** ** Resolver: what the order of arrival can and cannot change *)

Module ResolverFacts.
Import Model GraphStore Resolver.











(** *** Mentions that find their identity in the graph *)



(** *** The first mention of an identity *)







(** From the empty graph the two spellings of section 8 end in one entity
    in either order. *)
Example two_spellings_either_order :
  (aliases <$> entities
     (resolve_all (H := Examples.case_policy)
        [Examples.curie_1; Examples.curie_2] empty_graph))
  = [{[ "Marie Curie"; "MARIE CURIE" ]}] /\
  (aliases <$> entities
     (resolve_all (H := Examples.case_policy)
        [Examples.curie_2; Examples.curie_1] empty_graph))
  = [{[ "Marie Curie"; "MARIE CURIE" ]}].
Proof. split; vm_compute; reflexivity. Qed.

End ResolverFacts.

(** ** Extractor: bounded repair, then quarantine *)

Module ExtractorFacts.
Import Model Completion Resolver Extractor.







End ExtractorFacts.

(** ** Query Engine: one retry, then the error *)

Module QueryFacts.
Import Model Completion Extractor QueryEngine.

(** A request to a backend that times out: the answer and the log. *)
Lemma call_times_out `{Service B} (req : Request) (ses : Session B) :
  always_times_out B ->
  exists next,
    call req ses =
      (inl RetrievalTimeout, {| backend := next; calls := calls ses ++ [req] |}).
Proof.
  intros Hout. unfold call. specialize (Hout (backend ses) req).
  destruct (complete (backend ses) req) as [answer next]. simpl in Hout.
  subst answer. exists next. reflexivity.
Qed.

(** C6.  Against a Completion Service that always times out, a query in
    any mode returns — [query] is a total function — with
    [RetrievalTimeout], having sent exactly two requests: the synthesis
    prompt and one retry with that prompt shortened. *)
Theorem query_times_out_after_one_retry `{Service B} `{QueryPolicy}
    (m : mode) (question : string) (idx : Index) (ses : Session B) :
  always_times_out B ->
  exists ses1,
    let text := synthesis_prompt question (evidence_for m question idx) in
    query m question idx ses = (inl RetrievalTimeout, ses1) /\
    calls ses1 = calls ses ++ [answer_request text; answer_request (shorten text)].
Proof.
  intros Hout. cbv zeta.
  set (text := synthesis_prompt question (evidence_for m question idx)).
  destruct (call_times_out (answer_request text) ses Hout) as [b1 H1].
  destruct (call_times_out (answer_request (shorten text))
              {| backend := b1; calls := calls ses ++ [answer_request text] |} Hout)
    as [b2 H2].
  eexists. unfold query, complete_with_retry, bind. fold text.
  rewrite H1, H2. simpl. split; [reflexivity|].
  rewrite <- app_assoc. reflexivity.
Qed.

Lemma query_times_out_after_one_retry_witness :
  exists ses1,
    @query unit Examples.dead_backend Examples.plain_query Hybrid "Who?"
      empty_index (fresh_session tt) = (inl RetrievalTimeout, ses1) /\
    (prompt <$> calls ses1) = ["Answer: Who?"; "Answer: "].
Proof.
  destruct (@query_times_out_after_one_retry unit Examples.dead_backend
              Examples.plain_query Hybrid "Who?" empty_index (fresh_session tt))
    as (ses1 & Hq & Hcalls).
  { intros b req. reflexivity. }
  exists ses1. split; [exact Hq|]. rewrite Hcalls. reflexivity.
Defined.

End QueryFacts.

(** ** Community Engine: the levels are nested partitions *)

Module CommunityFacts.
Import Model CommunityEngine.

Lemma communities_NoDup wg a : NoDup (communities wg a).
Proof.
  unfold communities. rewrite merge_sort_Permutation. apply NoDup_elements.
Qed.

Lemma elem_of_communities wg a c :
  c ∈ communities wg a <-> exists v, v ∈ nodes wg /\ community_of a v = c.
Proof.
  unfold communities.
  rewrite merge_sort_Permutation, elem_of_elements, elem_of_list_to_set,
    list_elem_of_fmap.
  split; intros (v & H1 & H2); exists v; split; auto.
Qed.

Lemma filter_fmap {A B} (f : A -> B) (p : B -> bool) (l : list A) :
  List.filter p (f <$> l) = f <$> List.filter (fun x => p (f x)) l.
Proof.
  induction l as [|x l IH]; [reflexivity|].
  rewrite fmap_cons. cbn [List.filter].
  destruct (p (f x)); rewrite IH; reflexivity.
Qed.

Lemma filter_agree {A} (p q : A -> bool) (l : list A) :
  (forall x, x ∈ l -> p x = q x) -> List.filter p l = List.filter q l.
Proof.
  induction l as [|x l IH]; intros H; [reflexivity|]. simpl.
  rewrite (H x) by (apply elem_of_cons; left; reflexivity).
  rewrite IH by (intros y Hy; apply H, elem_of_cons; right; exact Hy).
  reflexivity.
Qed.

(** In a list without repetition, a test that singles out [x] keeps
    exactly [x]. *)
Lemma filter_single {A} (p : A -> bool) (l : list A) (x : A) :
  NoDup l -> x ∈ l -> (forall y, y ∈ l -> (p y = true <-> y = x)) ->
  List.filter p l = [x].
Proof.
  induction l as [|y l IH]; intros Hnd Hx Hp.
  - apply elem_of_nil in Hx. contradiction.
  - apply NoDup_cons in Hnd as [Hy Hnd]. simpl.
    assert (Hrest : forall z, z ∈ l -> (p z = true <-> z = x))
      by (intros z Hz; apply Hp, elem_of_cons; right; exact Hz).
    destruct (p y) eqn:Epy.
    + apply Hp in Epy; [|apply elem_of_cons; left; reflexivity]. subst y.
      f_equal. rewrite (filter_agree p (fun _ => false)).
      * clear. induction l as [|? ? IHl]; [reflexivity|exact IHl].
      * intros z Hz. destruct (p z) eqn:Epz; [|reflexivity].
        apply Hrest in Epz; [|exact Hz]. subst z. contradiction.
    + apply IH; [exact Hnd| |exact Hrest].
      apply elem_of_cons in Hx as [->|Hx]; [|exact Hx].
      assert (p y = true) by (apply Hp; [apply elem_of_cons; left|]; reflexivity).
      congruence.
Qed.

Lemma elem_of_members_of members wg a c e :
  e ∈ members_of members wg a c <->
  exists v, v ∈ nodes wg /\ community_of a v = c /\ e ∈ members v.
Proof.
  unfold members_of. rewrite elem_of_union_list. split.
  - intros (X & HX & He). apply list_elem_of_fmap in HX as (v & -> & Hv).
    apply list_elem_of_In, filter_In in Hv as [Hv Hc].
    apply bool_decide_eq_true in Hc. apply list_elem_of_In in Hv.
    exists v. auto.
  - intros (v & Hv & Hc & He). exists (members v). split; [|exact He].
    apply list_elem_of_fmap. exists v. split; [reflexivity|].
    apply list_elem_of_In, filter_In. split; [apply list_elem_of_In, Hv|].
    apply bool_decide_eq_true, Hc.
Qed.

(** [climb] starts its stack with the level it was given and chains the
    levels it adds. *)
Lemma climb_chained `{ClusteringPolicy} more :
  forall wg a stack,
    climb more wg a = inr stack ->
    exists rest, stack = (wg, a) :: rest /\ chained stack.
Proof.
  induction more as [|more IH]; intros wg a stack Hc; simpl in Hc.
  - injection Hc as <-. exists []. simpl. auto.
  - destruct (local_moving max_passes (collapse wg a) ∅) as [next|];
      [|discriminate].
    destruct (Nat.ltb _ _).
    + destruct (climb more (collapse wg a) next) as [e|upper] eqn:Eup;
        [discriminate|].
      injection Hc as <-.
      destruct (IH _ _ _ Eup) as (rest & -> & Hch).
      exists ((collapse wg a, next) :: rest). split; [reflexivity|].
      change (nodes (collapse wg a) = communities wg a /\
              chained ((collapse wg a, next) :: rest)).
      split; [reflexivity|exact Hch].
    + injection Hc as <-. exists []. simpl. auto.
Qed.

(** The records of a level that carry the id [p]: exactly one when [p]
    is a community of the level. *)
Lemma one_record_per_id depth members parent wg a p :
  p ∈ communities wg a ->
  List.filter (fun C => bool_decide (community_ident C = p))
    (record depth members parent <$> communities wg a)
  = [record depth members parent p].
Proof.
  intros Hp. rewrite filter_fmap. simpl.
  rewrite (filter_single _ _ p); [reflexivity|apply communities_NoDup|exact Hp|].
  intros y _. apply bool_decide_eq_true.
Qed.

(** Two levels that follow each other in a chained stack. *)
Lemma render_adjacent L :
  forall stack depth members lower upper,
    chained stack ->
    render depth members stack !! L = Some lower ->
    render depth members stack !! S L = Some upper ->
    (forall c, c ∈ lower ->
       exists p, parent_community_id c = Some p /\
         length (List.filter (fun C => bool_decide (community_ident C = p)) upper) = 1) /\
    (forall C, C ∈ upper ->
       member_entity_ids C =
         ⋃ (member_entity_ids <$>
              List.filter
                (fun c => bool_decide (parent_community_id c = Some (community_ident C)))
                lower)).
Proof.
  induction L as [|L IH]; intros stack depth members lower upper Hch Hlo Hup.
  - destruct stack as [|[wg a] [|[wg' a'] rest]]; try discriminate.
    simpl in Hlo, Hup. injection Hlo as <-. injection Hup as <-.
    destruct Hch as [Hnodes _]. split.
    + intros c (c0 & -> & Hc0)%list_elem_of_fmap.
      exists (community_of a' c0). split; [reflexivity|].
      rewrite one_record_per_id; [reflexivity|].
      apply elem_of_communities. exists c0. rewrite Hnodes. auto.
    + intros C (c' & -> & Hc')%list_elem_of_fmap.
      rewrite filter_fmap, <- list_fmap_compose. simpl.
      unfold members_of at 1. rewrite Hnodes. do 2 f_equal.
      apply filter_agree. intros v _.
      apply bool_decide_ext.
      split; [intros ->; reflexivity|intros [= ->]; reflexivity].
  - destruct stack as [|[wg a] rest]; [discriminate|].
    simpl in Hlo, Hup. destruct Hch as [_ Hch].
    exact (IH rest _ _ lower upper Hch Hlo Hup).
Qed.

(** The bottom level over the entity graph. *)
Lemma render_bottom n wg a parent e :
  nodes wg = seq 0 n -> e < n ->
  List.filter (fun C => bool_decide (e ∈ member_entity_ids C))
    (record 0 (members_of (fun v => {[v]}) wg a) parent <$> communities wg a)
  = [record 0 (members_of (fun v => {[v]}) wg a) parent (community_of a e)].
Proof.
  intros Hnodes He.
  assert (Hin : e ∈ nodes wg) by (rewrite Hnodes; apply elem_of_seq; lia).
  rewrite filter_fmap. simpl.
  rewrite (filter_single _ _ (community_of a e)); [reflexivity| | |].
  - apply communities_NoDup.
  - apply elem_of_communities. exists e. auto.
  - intros c _. rewrite bool_decide_eq_true, elem_of_members_of. split.
    + intros (v & _ & Hc & ->%elem_of_singleton). symmetry. exact Hc.
    + intros ->. exists e. repeat split; [exact Hin|]. apply elem_of_singleton.
      reflexivity.
Qed.

(** C4.  In every stack of levels that [detect_communities] returns, each
    entity of the graph is a member of exactly one community of level 0
    and level 0 has no other member; and for two levels that follow each
    other, every community of the lower level has its parent exactly once
    in the upper level, and every community of the upper level has as
    members the union of the members of its children in the lower level. *)
Theorem detected_levels_are_nested_partitions `{ClusteringPolicy}
    (g : Graph) (levels : list (list Community)) :
  detect_communities g = inr levels ->
  (exists bottom,
      levels !! 0 = Some bottom /\
      (forall e, is_Some (entities g !! e) ->
         length (List.filter (fun C => bool_decide (e ∈ member_entity_ids C)) bottom) = 1) /\
      (forall C e, C ∈ bottom -> e ∈ member_entity_ids C ->
         is_Some (entities g !! e))) /\
  (forall L lower upper,
      levels !! L = Some lower -> levels !! S L = Some upper ->
      (forall c, c ∈ lower ->
         exists p, parent_community_id c = Some p /\
           length (List.filter (fun C => bool_decide (community_ident C = p)) upper) = 1) /\
      (forall C, C ∈ upper ->
         member_entity_ids C =
           ⋃ (member_entity_ids <$>
                List.filter
                  (fun c => bool_decide (parent_community_id c = Some (community_ident C)))
                  lower))).
Proof.
  unfold detect_communities. intros Hd.
  destruct (local_moving max_passes (entity_graph g) ∅) as [a0|]; [|discriminate].
  destruct (climb (pred max_levels) (entity_graph g) a0) as [e|stack] eqn:Eclimb;
    [discriminate|].
  injection Hd as <-.
  destruct (climb_chained _ _ _ _ Eclimb) as (rest & -> & Hch).
  split.
  - eexists. split; [reflexivity|]. split.
    + intros e He%lookup_lt_is_Some.
      erewrite render_bottom; [reflexivity..|exact He].
    + intros C e (c & -> & _)%list_elem_of_fmap He. simpl in He.
      apply elem_of_members_of in He as (v & Hv & _ & ->%elem_of_singleton).
      simpl in Hv. apply elem_of_seq in Hv. apply lookup_lt_is_Some. lia.
  - intros L lower upper Hlo Hup.
    exact (render_adjacent L _ _ _ lower upper Hch Hlo Hup).
Qed.

Lemma detected_levels_are_nested_partitions_witness :
  length Examples.sixteen_levels = 2 /\
  forall lower upper,
    Examples.sixteen_levels !! 0 = Some lower ->
    Examples.sixteen_levels !! 1 = Some upper ->
    forall C, C ∈ upper ->
      member_entity_ids C =
        ⋃ (member_entity_ids <$>
             List.filter
               (fun c => bool_decide (parent_community_id c = Some (community_ident C)))
               lower).
Proof.
  split; [vm_compute; reflexivity|].
  intros lower upper Hlo Hup.
  refine (proj2 (proj2
    (detected_levels_are_nested_partitions (H := Examples.newman_policy)
       Examples.sixteen Examples.sixteen_levels _) 0 lower upper Hlo Hup)).
  vm_compute. reflexivity.
Defined.

End CommunityFacts.
